(** * powerwalk: a concurrent file-tree walker

    Verification development for [walker.go].  [WalkLimit] starts [limit]
    worker goroutines, one error monitor and one discoverer, and waits for
    the discoverer only.  The goroutines are modelled by their program
    counters (one constructor per blocking point or statement of the source),
    the three unbuffered channels by their closed flags, and the scheduler by
    an explicit list of actions: [step] runs one statement of one goroutine,
    [WalkLimit] runs a whole schedule.  Interleavings are sequentially
    consistent.

    The tree-discovery primitive [filepath.Walk] belongs to the Go standard
    library.  It is represented by the sequence of entries it hands to its
    callback while the callback keeps returning nil; a callback result that is
    neither nil nor [SkipDir] ends the walk with that result. *)

From stdpp Require Import base list strings.
From Stdlib Require Import ZArith Lia.

Local Open Scope Z_scope.

(** ** Data *)

(** Go's [error] values.  [WalkAbort] is the value built by
    [errors.New("Error in walk. Cannot continue.")] inside the discovery
    callback (line 80); it is allocated there and never handed to the
    visitor. *)
Inductive error :=
| SkipDir
| WalkAbort
| Err (msg : string).

(** The part of [os.FileInfo] a visitor can look at. *)
Record FileInfo := { name : string; isDir : bool }.

(** [type walkArgs struct] (line 102). *)
Record walkArgs := { path : string; info : option FileInfo; err : option error }.

(** [filepath.WalkFunc], with nil as [None]. *)
Definition WalkFunc := walkArgs -> option error.

(** [const DefaultConcurrentWalks int = 50] (line 12). *)
Definition DefaultConcurrentWalks : Z := 50.

(** Values a goroutine can panic with. *)
Inductive panic_value :=
| PanicString (msg : string)
| CloseOfClosedChannel
| SendOnClosedChannel
| NilDereference.

Definition limit_message : string := "powerwalk: limit must be greater than zero.".

Inductive goroutine := GMain | GMonitor | GDiscoverer | GWorker (i : nat).

(** ** Program counters *)

(** A worker (lines 46-57). *)
Inductive worker_pc :=
| WSelect                 (* line 48, the select has not been evaluated yet *)
| WParked                 (* line 48, blocked in the select on files and kill *)
| WCall (a : walkArgs)    (* line 50, walkFn is running on a *)
| WSendErr (e : error)    (* line 51, errs <- e *)
| WReturned.              (* line 54 *)

(** The error monitor (lines 63-70). *)
Inductive monitor_pc :=
| MNotStarted
| MSelect                 (* line 64 *)
| MAssign (e : error)     (* line 65, e received, the store to walkErr pending *)
| MCloseKill              (* line 66 *)
| MReturned.

(** The discoverer (lines 74-91). *)
Inductive disc_pc :=
| DNotStarted
| DCallback (rest : list walkArgs)              (* line 77, filepath.Walk is about to call back on the head of rest *)
| DDeliver (a : walkArgs) (rest : list walkArgs) (* line 82, the inner select *)
| DWalkReturned (r : option error)              (* line 90, filepath.Walk returned r *)
| DDone.                                        (* after wg.Done() *)

(** The calling goroutine (lines 34-45 and 93-99). *)
Inductive main_pc :=
| MainLimitCheck                  (* line 37 *)
| MainWait                        (* line 93 *)
| MainIf                          (* line 95 *)
| MainCloseKill                   (* line 96 *)
| MainReturn                      (* line 99 *)
| MainReturned (r : option error).

(** ** State *)

Record state := mkState {
  workers : list worker_pc;
  monitor : monitor_pc;
  disc : disc_pc;
  main : main_pc;
  made_chans : bool;              (* lines 41-43 have run *)
  files_closed : bool;
  kill_closed : bool;
  walkErr : option error;         (* line 60 *)
  panicked : option panic_value;
  (* history, never read by the program *)
  visited : list walkArgs;        (* arguments of the walkFn calls, in start order *)
  offered : list walkArgs;        (* entries that reached the inner select *)
  kill_closers : list goroutine;  (* who closed kill *)
  files_closes : nat;             (* how often files was closed *)
  walk_result : option (option error)  (* what filepath.Walk returned *)
}.

Definition init : state :=
  mkState [] MNotStarted DNotStarted MainLimitCheck false false false None None
          [] [] [] 0%nat None.

Definition set_workers ws (s : state) : state :=
  mkState ws (monitor s) (disc s) (main s) (made_chans s) (files_closed s)
          (kill_closed s) (walkErr s) (panicked s) (visited s) (offered s)
          (kill_closers s) (files_closes s) (walk_result s).

Definition set_monitor m (s : state) : state :=
  mkState (workers s) m (disc s) (main s) (made_chans s) (files_closed s)
          (kill_closed s) (walkErr s) (panicked s) (visited s) (offered s)
          (kill_closers s) (files_closes s) (walk_result s).

Definition set_disc d (s : state) : state :=
  mkState (workers s) (monitor s) d (main s) (made_chans s) (files_closed s)
          (kill_closed s) (walkErr s) (panicked s) (visited s) (offered s)
          (kill_closers s) (files_closes s) (walk_result s).

Definition set_main m (s : state) : state :=
  mkState (workers s) (monitor s) (disc s) m (made_chans s) (files_closed s)
          (kill_closed s) (walkErr s) (panicked s) (visited s) (offered s)
          (kill_closers s) (files_closes s) (walk_result s).

Definition set_walkErr e (s : state) : state :=
  mkState (workers s) (monitor s) (disc s) (main s) (made_chans s) (files_closed s)
          (kill_closed s) e (panicked s) (visited s) (offered s)
          (kill_closers s) (files_closes s) (walk_result s).

Definition set_walk_result r (s : state) : state :=
  mkState (workers s) (monitor s) (disc s) (main s) (made_chans s) (files_closed s)
          (kill_closed s) (walkErr s) (panicked s) (visited s) (offered s)
          (kill_closers s) (files_closes s) (Some r).

Definition add_visited a (s : state) : state :=
  mkState (workers s) (monitor s) (disc s) (main s) (made_chans s) (files_closed s)
          (kill_closed s) (walkErr s) (panicked s) (visited s ++ [a]) (offered s)
          (kill_closers s) (files_closes s) (walk_result s).

Definition add_offered a (s : state) : state :=
  mkState (workers s) (monitor s) (disc s) (main s) (made_chans s) (files_closed s)
          (kill_closed s) (walkErr s) (panicked s) (visited s) (offered s ++ [a])
          (kill_closers s) (files_closes s) (walk_result s).

(** A panic in any goroutine ends the process. *)
Definition do_panic v (s : state) : state :=
  mkState (workers s) (monitor s) (disc s) (main s) (made_chans s) (files_closed s)
          (kill_closed s) (walkErr s) (Some v) (visited s) (offered s)
          (kill_closers s) (files_closes s) (walk_result s).

(** [close(kill)] by goroutine [g], followed by [k]. *)
Definition close_kill (g : goroutine) (k : state -> state) (s : state) : state :=
  if kill_closed s then do_panic CloseOfClosedChannel s
  else k (mkState (workers s) (monitor s) (disc s) (main s) (made_chans s)
                  (files_closed s) true (walkErr s) (panicked s) (visited s)
                  (offered s) (kill_closers s ++ [g]) (files_closes s) (walk_result s)).

(** [close(files)], followed by [k]. *)
Definition close_files (k : state -> state) (s : state) : state :=
  if files_closed s then do_panic CloseOfClosedChannel s
  else k (mkState (workers s) (monitor s) (disc s) (main s) (made_chans s)
                  true (kill_closed s) (walkErr s) (panicked s) (visited s)
                  (offered s) (kill_closers s) (S (files_closes s)) (walk_result s)).

Definition is_parked (w : worker_pc) : bool :=
  match w with WParked => true | _ => false end.

Definition is_call (w : worker_pc) : bool :=
  match w with WCall _ => true | _ => false end.

(** Worker [i] can take a value sent on files right now: it is blocked in its
    select and kill has not been closed since (closing kill wakes every
    goroutine blocked on it, and that goroutine then runs its kill case). *)
Definition ready_worker (s : state) (i : nat) : bool :=
  negb (kill_closed s) &&
  match workers s !! i with Some WParked => true | _ => false end.

Definition some_ready (s : state) : bool :=
  negb (kill_closed s) && existsb is_parked (workers s).

(** Number of visitor calls that are running. *)
Definition in_flight (s : state) : nat := length (filter (fun w => is_call w = true) (workers s)).

(** ** Scheduler actions *)

Inductive action :=
| AMain
| AMonitor (c : option nat)   (* at the select: Some i receives from worker i, None takes the kill case *)
| ADisc (c : option nat)      (* at the inner select: Some i hands the entry to worker i, None takes default *)
| AWorker (i : nat) (pick_files : bool). (* at the select with both cases ready: which one *)

(** ** Sample inputs *)

Definition file_a : walkArgs :=
  {| path := "r/a.txt"; info := Some {| name := "a.txt"; isDir := false |}; err := None |}.
Definition file_b : walkArgs :=
  {| path := "r/b.txt"; info := Some {| name := "b.txt"; isDir := false |}; err := None |}.
Definition dir_r : walkArgs :=
  {| path := "r"; info := Some {| name := "r"; isDir := true |}; err := None |}.

(** The tree r/{a.txt, b.txt} in discovery order, whatever the root. *)
Definition sample_tree (rt : string) : list walkArgs := [dir_r; file_a; file_b].

(** A tree with the single entry b.txt. *)
Definition single_tree (rt : string) : list walkArgs := [file_b].

Definition visit_ok : WalkFunc := fun _ => None.

(** Fails with "boom" on b.txt only. *)
Definition visit_boom_b : WalkFunc :=
  fun a => if String.eqb (path a) "r/b.txt" then Some (Err "boom") else None.

(** Returns SkipDir on directories. *)
Definition visit_skip_dirs : WalkFunc :=
  fun a => match info a with
           | Some i => if isDir i then Some SkipDir else None
           | None => None
           end.

Section Walker.

Variable discover : string -> list walkArgs.
Variable root : string.
Variable walkFn : WalkFunc.

(** Lines 41-91: the channels are made and the goroutines started. *)
Definition spawn (limit : Z) (s : state) : state :=
  mkState (replicate (Z.to_nat limit) WSelect) MSelect (DCallback (discover root)) MainWait
          true (files_closed s) (kill_closed s) (walkErr s) (panicked s)
          (visited s) (offered s) (kill_closers s) (files_closes s) (walk_result s).

Definition step_main (limit : Z) (s : state) : option state :=
  match main s with
  | MainLimitCheck =>
      if limit <? 1 then Some (do_panic (PanicString limit_message) s)
      else Some (spawn limit s)
  | MainWait =>
      match disc s with DDone => Some (set_main MainIf s) | _ => None end
  | MainIf =>
      match walkErr s with
      | None => Some (set_main MainCloseKill s)
      | Some _ => Some (set_main MainReturn s)
      end
  | MainCloseKill => Some (close_kill GMain (set_main MainReturn) s)
  | MainReturn => Some (set_main (MainReturned (walkErr s)) s)
  | MainReturned _ => None
  end.

Definition step_monitor (c : option nat) (s : state) : option state :=
  match monitor s with
  | MSelect =>
      match c with
      | Some i =>
          match workers s !! i with
          | Some (WSendErr e) =>
              Some (set_monitor (MAssign e) (set_workers (<[i:=WSelect]> (workers s)) s))
          | _ => None
          end
      | None => if kill_closed s then Some (set_monitor MReturned s) else None
      end
  | MAssign e => Some (set_monitor MCloseKill (set_walkErr (Some e) s))
  | MCloseKill => Some (close_kill GMonitor (set_monitor MReturned) s)
  | MNotStarted | MReturned => None
  end.

Definition step_disc (c : option nat) (s : state) : option state :=
  match disc s with
  | DCallback [] => Some (set_disc (DWalkReturned None) (set_walk_result None s))
  | DCallback (a :: rest) =>
      if kill_closed s then
        Some (close_files
                (fun s' => set_disc (DWalkReturned (Some WalkAbort))
                                    (set_walk_result (Some WalkAbort) s')) s)
      else Some (set_disc (DDeliver a rest) s)
  | DDeliver a rest =>
      if files_closed s then Some (do_panic SendOnClosedChannel s)
      else match c with
           | Some i =>
               if ready_worker s i then
                 Some (set_disc (DCallback rest)
                         (add_offered a (add_visited a
                            (set_workers (<[i:=WCall a]> (workers s)) s))))
               else None
           | None =>
               if some_ready s then None
               else Some (set_disc (DCallback rest) (add_offered a s))
           end
  | DWalkReturned _ => Some (set_disc DDone s)
  | DNotStarted | DDone => None
  end.

Definition step_worker (i : nat) (pick_files : bool) (s : state) : option state :=
  match workers s !! i with
  | Some WSelect =>
      match files_closed s, kill_closed s with
      | false, false => Some (set_workers (<[i:=WParked]> (workers s)) s)
      | true, false => Some (do_panic NilDereference s)
      | false, true => Some (set_workers (<[i:=WReturned]> (workers s)) s)
      | true, true =>
          if pick_files then Some (do_panic NilDereference s)
          else Some (set_workers (<[i:=WReturned]> (workers s)) s)
      end
  | Some WParked =>
      if kill_closed s then Some (set_workers (<[i:=WReturned]> (workers s)) s)
      else if files_closed s then Some (do_panic NilDereference s)
      else None
  | Some (WCall a) =>
      match walkFn a with
      | None => Some (set_workers (<[i:=WSelect]> (workers s)) s)
      | Some e => Some (set_workers (<[i:=WSendErr e]> (workers s)) s)
      end
  | Some (WSendErr _) | Some WReturned | None => None
  end.

(** One statement of one goroutine; [None] when that goroutine cannot move. *)
Definition step (limit : Z) (a : action) (s : state) : option state :=
  match panicked s with
  | Some _ => None
  | None =>
      match a with
      | AMain => step_main limit s
      | AMonitor c => step_monitor c s
      | ADisc c => step_disc c s
      | AWorker i p => step_worker i p s
      end
  end.

Fixpoint run (limit : Z) (sched : list action) (s : state) : option state :=
  match sched with
  | [] => Some s
  | a :: sched' =>
      match step limit a s with
      | Some s' => run limit sched' s'
      | None => None
      end
  end.

(** [func WalkLimit(root string, walkFn filepath.WalkFunc, limit int) error]
    under the schedule [sched]. *)
Definition WalkLimit (limit : Z) (sched : list action) : option state := run limit sched init.

Definition reachable (limit : Z) (s : state) : Prop := exists sched, WalkLimit limit sched = Some s.

(** The call returned [r] to its caller. *)
Definition returns (limit : Z) (sched : list action) (r : option error) : Prop :=
  exists s, WalkLimit limit sched = Some s /\ main s = MainReturned r.

(** [func Walk(root string, walkFn filepath.WalkFunc) error] (line 22). *)
Definition Walk : list action -> option state := WalkLimit DefaultConcurrentWalks.

(** ** Invariants of the executions *)

(** Before line 41 nothing exists; afterwards there are [limit] workers, and
    the caller gets past [wg.Wait()] only when the discoverer is done. *)
Definition start_inv (limit : Z) (s : state) : Prop :=
  match main s with
  | MainLimitCheck =>
      workers s = [] /\ monitor s = MNotStarted /\ disc s = DNotStarted /\
      made_chans s = false /\ kill_closed s = false /\ files_closed s = false /\
      walkErr s = None /\ visited s = [] /\ offered s = [] /\ kill_closers s = [] /\
      files_closes s = 0%nat /\ walk_result s = None /\
      (panicked s = None \/ (limit < 1 /\ panicked s = Some (PanicString limit_message)))
  | MainWait =>
      made_chans s = true /\ 1 <= limit /\ length (workers s) = Z.to_nat limit /\
      match monitor s with MNotStarted => False | _ => True end /\
      match disc s with DNotStarted => False | _ => True end
  | _ =>
      made_chans s = true /\ 1 <= limit /\ length (workers s) = Z.to_nat limit /\
      match monitor s with MNotStarted => False | _ => True end /\
      disc s = DDone
  end.

(** kill is closed at most once, by the monitor after it stored an error or by
    the caller on its way out. *)
Definition kill_inv (s : state) : Prop :=
  match kill_closed s, kill_closers s with
  | false, [] => True
  | true, [GMonitor] => monitor s = MReturned /\ walkErr s <> None
  | true, [GMain] => main s = MainReturn \/ exists r, main s = MainReturned r
  | _, _ => False
  end.

(** walkErr is written by the monitor only, once. *)
Definition walkErr_inv (s : state) : Prop :=
  match monitor s with
  | MCloseKill => walkErr s <> None
  | MReturned => True
  | _ => walkErr s = None
  end /\
  match main s with
  | MainReturned r => r = None \/ r = walkErr s
  | _ => True
  end.

(** files is closed only by the discoverer, when its callback saw kill closed. *)
Definition files_inv (s : state) : Prop :=
  match walk_result s with
  | None =>
      files_closed s = false /\ files_closes s = 0%nat /\
      match disc s with DNotStarted | DCallback _ | DDeliver _ _ => True | _ => False end
  | Some None =>
      files_closed s = false /\ files_closes s = 0%nat /\
      match disc s with DWalkReturned None | DDone => True | _ => False end
  | Some (Some WalkAbort) =>
      files_closed s = true /\ files_closes s = 1%nat /\ kill_closed s = true /\
      match disc s with DWalkReturned (Some WalkAbort) | DDone => True | _ => False end
  | Some (Some _) => False
  end.

Definition control_inv (limit : Z) (s : state) : Prop :=
  start_inv limit s /\ kill_inv s /\ walkErr_inv s /\ files_inv s.


(** An error that some started visitor call returns. *)
Definition from_visitor (s : state) (e : error) : Prop :=
  exists a, a ∈ visited s /\ walkFn a = Some e.

(** Every error in the system comes from a visitor call. *)
Definition error_inv (s : state) : Prop :=
  (forall i a, workers s !! i = Some (WCall a) -> a ∈ visited s) /\
  (forall i e, workers s !! i = Some (WSendErr e) -> from_visitor s e) /\
  (forall e, monitor s = MAssign e -> from_visitor s e) /\
  (forall e, walkErr s = Some e -> from_visitor s e) /\
  (forall e, main s = MainReturned (Some e) -> from_visitor s e).

(** The discoverer goes through the entries in order; visited entries were
    offered. *)
Definition entries_inv (s : state) : Prop :=
  match disc s with
  | DNotStarted => offered s = []
  | DCallback rest => offered s ++ rest = discover root
  | DDeliver a rest => offered s ++ a :: rest = discover root
  | DWalkReturned _ | DDone => exists rest, offered s ++ rest = discover root
  end /\
  (forall a, a ∈ visited s -> a ∈ offered s).


(** ** Two schedules *)

(** The discoverer goes through [n] entries while no worker is ready. *)
Definition drop_sched (n : nat) : list action := repeat (ADisc None) (2 * n).

(** No worker runs before the discoverer is done with [n] entries; the caller
    then finds walkErr nil, closes kill and returns. *)
Definition sched_nil (n : nat) : list action :=
  AMain :: drop_sched n ++ [ADisc None; ADisc None; AMain; AMain; AMain; AMain].

(** The first [k] entries are skipped, worker 0 then blocks in its select,
    takes entry [k], its visitor call fails, the monitor receives and stores
    the error and closes kill; the discoverer winds up and the caller
    returns. *)
Definition sched_err (k : nat) : list action :=
  AMain :: drop_sched k ++
  [AWorker 0 false; ADisc None; ADisc (Some 0%nat); AWorker 0 false;
   AMonitor (Some 0%nat); AMonitor None; AMonitor None;
   ADisc None; ADisc None; AMain; AMain; AMain].

Definition is_nil (r : option error) : bool :=
  match r with None => true | Some _ => false end.

(** Some execution returns a value that is nil ([b = true]) or not nil. *)
Definition may_return (limit : Z) (b : bool) : Prop :=
  exists sched r, returns limit sched r /\ is_nil r = b.


(** Worker 0 is blocked in its select when the discoverer reaches the inner
    select for the first entry. *)
Definition sched_ready : list action := [AMain; AWorker 0 false; ADisc None].


(** ** Some reachable states *)


(** Same input: the discoverer is at the inner select for b.txt and worker 0
    is blocked in its select. *)
Definition state_ready : state :=
  mkState [WParked] MSelect (DDeliver file_b []) MainWait
          true false false None None [] [] [] 0%nat None.

(** Tree [sample_tree], visitor [visit_skip_dirs], one worker: the visitor
    call on the root directory returned SkipDir, the monitor stored it and
    closed kill, and the discoverer is about to call back on a.txt. *)
Definition state_cancelled : state :=
  mkState [WSelect] MReturned (DCallback [file_a; file_b]) MainWait
          true false true (Some SkipDir) None [dir_r] [dir_r]
          [GMonitor] 0%nat None.

(** The same execution at its end: files was closed, filepath.Walk returned
    the line-80 error, and the call returned SkipDir. *)
Definition state_skipdir_returned : state :=
  mkState [WSelect] MReturned DDone (MainReturned (Some SkipDir))
          true true true (Some SkipDir) None [dir_r] [dir_r]
          [GMonitor] 1%nat (Some (Some WalkAbort)).

(** ** Further invariants *)

(** What a panic can be: the limit check, a second close of kill, or a worker
    that took the nil value of the closed files channel. *)
Definition panic_inv (limit : Z) (s : state) : Prop :=
  match panicked s with
  | None => True
  | Some (PanicString m) => m = limit_message /\ limit < 1 /\ main s = MainLimitCheck
  | Some CloseOfClosedChannel =>
      kill_closed s = true /\ (main s = MainCloseKill \/ monitor s = MCloseKill)
  | Some NilDereference =>
      files_closed s = true /\ exists i, workers s !! i = Some WSelect
  | Some SendOnClosedChannel => False
  end.

(** How the caller leaves: past line 97 either an error is stored or the
    caller itself closed kill. *)
Definition exit_inv (s : state) : Prop :=
  (files_closed s = true -> kill_closers s = [GMonitor]) /\
  (walk_result s = Some None -> offered s = discover root) /\
  match main s with
  | MainReturn => walkErr s <> None \/ kill_closers s = [GMain]
  | MainReturned None => kill_closers s = [GMain]
  | _ => True
  end.

(** Same input as [state_ready], one step later: b.txt was handed to worker 0
    and its visitor call is running. *)
Definition state_visiting : state :=
  mkState [WCall file_b] MSelect (DCallback []) MainWait
          true false false None None [file_b] [file_b] [] 0%nat None.

(** Tree [sample_tree], visitor [visit_ok], two workers, at the end of
    [sched_nil 3]: nothing was visited and the call returned nil. *)
Definition state_all_dropped : state :=
  mkState [WSelect; WSelect] MSelect DDone (MainReturned None)
          true false true None None [] [dir_r; file_a; file_b] [GMain] 0%nat (Some None).

(** ** Schedules that end in a panic *)

(** After [k] skipped entries worker 0 takes the next one and its visitor
    call fails; the discoverer skips the [n] remaining entries and finishes;
    the caller reads a nil walkErr (line 95); only then does the monitor
    receive the error, store it and close kill; the caller's [close(kill)]
    (line 96) comes second. *)
Definition sched_double_close (k n : nat) : list action :=
  AMain :: drop_sched k ++
  [AWorker 0 false; ADisc None; ADisc (Some 0%nat); AWorker 0 false] ++
  drop_sched n ++
  [ADisc None; ADisc None; AMain; AMain;
   AMonitor (Some 0%nat); AMonitor None; AMonitor None; AMain].

(** As [sched_err] up to the monitor's [close(kill)]; the discoverer then
    finds kill closed and closes files, and worker 0, back at its select with
    both channels closed, takes the files case. *)
Definition sched_nil_deref (k : nat) : list action :=
  AMain :: drop_sched k ++
  [AWorker 0 false; ADisc None; ADisc (Some 0%nat); AWorker 0 false;
   AMonitor (Some 0%nat); AMonitor None; AMonitor None;
   ADisc None; AWorker 0 true].

(** Fails on every entry, with the path as message. *)
Definition visit_fail_all : WalkFunc := fun a => Some (Err (path a)).

(** Two workers take the first two entries, both visitor calls fail, and the
    monitor receives the error of worker 0. *)
Definition sched_two_errors : list action :=
  [AMain; AWorker 0 false; AWorker 1 false; ADisc None; ADisc (Some 0%nat);
   ADisc None; ADisc (Some 1%nat); AWorker 0 false; AWorker 1 false;
   AMonitor (Some 0%nat); AMonitor None; AMonitor None].

(** Tree [sample_tree], visitor [visit_fail_all], two workers, at the end of
    [sched_two_errors]: worker 1 is blocked sending the second error. *)
Definition state_second_error : state :=
  mkState [WSelect; WSendErr (Err "r/a.txt")] MReturned (DCallback [file_b]) MainWait
          true false true (Some (Err "r")) None [dir_r; file_a] [dir_r; file_a]
          [GMonitor] 0%nat None.

(** Tree [sample_tree], visitor [visit_boom_b], one worker, at the end of
    [sched_double_close 2 0]: the caller panicked at line 96. *)
Definition state_double_closed : state :=
  mkState [WSelect] MReturned DDone MainCloseKill
          true false true (Some (Err "boom")) (Some CloseOfClosedChannel)
          [file_b] [dir_r; file_a; file_b] [GMonitor] 0%nat (Some None).

(** [Walk] on [sample_tree] with [visit_ok], at the end of [sched_nil 3]. *)
Definition state_walk_done : state :=
  mkState (replicate 50 WSelect) MSelect DDone (MainReturned None)
          true false true None None [] [dir_r; file_a; file_b] [GMain] 0%nat (Some None).

(** 1 while the discoverer is between the kill check and the delivery attempt
    of an entry (line 82), else 0. *)
Definition delivering (s : state) : nat :=
  match disc s with DDeliver _ _ => 1%nat | _ => 0%nat end.

(** As [sched_double_close], but the caller closes kill and returns before
    the monitor receives the error. *)
Definition sched_close_after_return (k n : nat) : list action :=
  AMain :: drop_sched k ++
  [AWorker 0 false; ADisc None; ADisc (Some 0%nat); AWorker 0 false] ++
  drop_sched n ++
  [ADisc None; ADisc None; AMain; AMain; AMain; AMain;
   AMonitor (Some 0%nat); AMonitor None; AMonitor None].

(** ** Executions *)

Ltac state_simpl :=
  cbn [workers monitor disc main made_chans files_closed kill_closed walkErr panicked
       visited offered kill_closers files_closes walk_result set_workers set_monitor
       set_disc set_main set_walkErr set_walk_result add_visited add_offered do_panic
       spawn close_kill close_files] in *.

Ltac step_inv H :=
  unfold step, step_main, step_monitor, step_disc, step_worker, close_kill, close_files in H;
  state_simpl;
  repeat (match type of H with
          | context [match ?x with _ => _ end] => destruct x eqn:?
          end; try discriminate H; state_simpl);
  injection H as <-; state_simpl.

Ltac hyp_cases :=
  repeat match goal with
         | H : False |- _ => destruct H
         | H : _ /\ _ |- _ => destruct H
         | H : _ \/ _ |- _ => destruct H
         | H : exists _, _ |- _ => destruct H
         | H : context [match ?x with _ => _ end] |- _ => is_var x; destruct x
         | H : _ = _ |- _ => discriminate H
         end.


Lemma run_app limit sched1 sched2 s :
  run limit (sched1 ++ sched2) s =
  match run limit sched1 s with Some s' => run limit sched2 s' | None => None end.
Proof.
  revert s. induction sched1 as [|a sched1 IH]; intros s; simpl; [done|].
  destruct (step limit a s); [apply IH | done].
Qed.

Lemma run_snoc limit sched a s s' :
  run limit sched s = Some s' -> run limit (sched ++ [a]) s = step limit a s'.
Proof.
  intros H. rewrite run_app, H. simpl. by destruct (step limit a s').
Qed.

Lemma reachable_init limit : reachable limit init.
Proof. by exists []. Qed.

Lemma reachable_step limit a s s' :
  reachable limit s -> step limit a s = Some s' -> reachable limit s'.
Proof.
  intros [sched H] Hs. exists (sched ++ [a]). unfold WalkLimit in *.
  by rewrite (run_snoc _ _ _ _ _ H).
Qed.

Lemma reachable_run limit sched s s' :
  reachable limit s -> run limit sched s = Some s' -> reachable limit s'.
Proof.
  revert s. induction sched as [|a sched IH]; intros s Hr H; simpl in H.
  - by simplify_eq.
  - destruct (step limit a s) as [s1|] eqn:E; [|done].
    eapply IH; [|exact H]. by eapply reachable_step.
Qed.

(** Induction over the executions of the program. *)
Lemma reachable_ind limit (P : state -> Prop) :
  P init ->
  (forall a s s', reachable limit s -> P s -> step limit a s = Some s' -> P s') ->
  forall s, reachable limit s -> P s.
Proof.
  intros H0 Hstep s [sched H]. revert s H. unfold WalkLimit.
  induction sched as [|a sched IH] using rev_ind; intros s H.
  - simpl in H. by simplify_eq.
  - rewrite run_app in H.
    destruct (run limit sched init) as [s0|] eqn:E; [|done].
    simpl in H. destruct (step limit a s0) as [s1|] eqn:E1; [|done]. simplify_eq.
    eapply Hstep; [| |exact E1].
    + by exists sched.
    + by apply IH.
Qed.

(** ** The invariants hold in every reachable state *)

Lemma control_inv_reachable limit s : reachable limit s -> control_inv limit s.
Proof.
  revert s. apply (reachable_ind limit (control_inv limit)).
  - cbv. intuition congruence.
  - intros a s s' _ (Hs & Hk & [Hw Hm] & Hf) Hstep.
    unfold control_inv, start_inv, kill_inv, walkErr_inv, files_inv in *.
    destruct s as [ws mon d mn mc fc kc we pn vis off kcl fcs wr].
    destruct a; step_inv Hstep; hyp_cases; simplify_eq; cbn;
      rewrite ?length_insert, ?length_replicate; intuition (eauto; congruence || lia).
Qed.

Lemma from_visitor_mono s s' e :
  (forall a, a ∈ visited s -> a ∈ visited s') -> from_visitor s e -> from_visitor s' e.
Proof. intros H (a & Ha & Hf). exists a. auto. Qed.

Lemma error_inv_reachable limit s : reachable limit s -> error_inv s.
Proof.
  revert s. apply (reachable_ind limit error_inv).
  - repeat split; intros; cbn in *; simplify_eq.
  - intros a s s' _ (Hc & Hse & Hma & Hwe & Hret) Hstep.
    unfold error_inv, from_visitor in *.
    destruct s as [ws mon d mn mc fc kc we pn vis off kcl fcs wr].
    destruct a; step_inv Hstep.
    all: repeat split; intros;
      repeat match goal with
        | H : <[_:=_]> _ !! _ = Some _ |- _ =>
            apply list_lookup_insert_Some in H; destruct H as [(? & ? & ?)|(? & ?)]
        | H : replicate _ _ !! _ = Some _ |- _ => apply lookup_replicate in H; destruct H
        end; simplify_eq; eauto.
    all: try (apply elem_of_app; first [left; eauto; fail | right; by apply list_elem_of_singleton]).
    all: match goal with
         | H : forall _ _, _ -> exists _, _, H' : _ !! _ = Some (WSendErr _) |- _ =>
             destruct (H _ _ H') as (? & ? & ?)
         | H : forall _, _ -> exists _, _ |- _ =>
             destruct (H _ eq_refl) as (? & ? & ?)
         end; eexists; split; [apply elem_of_app; left; eassumption | done].
Qed.

Lemma entries_inv_reachable limit s : reachable limit s -> entries_inv s.
Proof.
  revert s. apply (reachable_ind limit entries_inv).
  - split; [done|]. intros a Ha. cbn in Ha. by apply elem_of_nil in Ha.
  - intros a s s' Hr [Hd Hv] Hstep. unfold entries_inv in *.
    destruct (control_inv_reachable _ _ Hr) as (Hs & _). unfold start_inv in Hs.
    destruct s as [ws mon d mn mc fc kc we pn vis off kcl fcs wr].
    destruct a; step_inv Hstep; hyp_cases; simplify_eq; cbn;
      (split; [rewrite <- ?(assoc_L (++)); cbn; eauto | ]).
    all: try (intros ? ?; rewrite ?elem_of_app, ?list_elem_of_singleton in *; intuition eauto).
Qed.

(** ** Consequences of the invariants *)

Lemma kill_cases limit s :
  reachable limit s ->
  (kill_closed s = false /\ kill_closers s = []) \/
  (kill_closed s = true /\ kill_closers s = [GMonitor] /\ monitor s = MReturned /\ walkErr s <> None) \/
  (kill_closed s = true /\ kill_closers s = [GMain] /\
   (main s = MainReturn \/ exists r, main s = MainReturned r)).
Proof.
  intros Hr. destruct (control_inv_reachable _ _ Hr) as (_ & Hk & _).
  clear Hr. unfold kill_inv in Hk. destruct s; cbn in *. hyp_cases; intuition eauto.
Qed.

Lemma files_cases limit s :
  reachable limit s ->
  (files_closed s = false /\ files_closes s = 0%nat /\ walk_result s <> Some (Some WalkAbort)) \/
  (files_closed s = true /\ files_closes s = 1%nat /\ walk_result s = Some (Some WalkAbort) /\
   kill_closed s = true /\ (disc s = DWalkReturned (Some WalkAbort) \/ disc s = DDone)).
Proof.
  intros Hr. destruct (control_inv_reachable _ _ Hr) as (_ & _ & _ & Hf).
  clear Hr. unfold files_inv in Hf. destruct s; cbn in *. hyp_cases; intuition (eauto; congruence).
Qed.

Lemma running_files_open limit s :
  reachable limit s ->
  (exists rest, disc s = DCallback rest) \/ (exists a rest, disc s = DDeliver a rest) ->
  files_closed s = false.
Proof.
  intros Hr Hd. destruct (files_cases _ _ Hr) as [(? & _)|(_ & _ & _ & _ & [H|H])]; [done|..];
    destruct Hd as [[? ?]|(? & ? & ?)]; congruence.
Qed.

Lemma some_ready_spec s :
  some_ready s = true <-> exists i, ready_worker s i = true.
Proof.
  unfold some_ready, ready_worker. destruct (kill_closed s); cbn.
  - split; [done|]. by intros [? ?].
  - rewrite existsb_exists. split.
    + intros (w & Hin & Hw). apply list_elem_of_In, list_elem_of_lookup in Hin.
      destruct Hin as [i Hi]. exists i. rewrite Hi. by destruct w.
    + intros [i Hi]. destruct (workers s !! i) as [w|] eqn:E; [|done].
      exists w. split; [|by destruct w].
      apply list_elem_of_In, list_elem_of_lookup. eauto.
Qed.

Lemma some_ready_false s :
  some_ready s = false <-> forall i, ready_worker s i = false.
Proof.
  split.
  - intros H i. destruct (ready_worker s i) eqn:E; [|done].
    assert (some_ready s = true) by (apply some_ready_spec; eauto). congruence.
  - intros H. destruct (some_ready s) eqn:E; [|done].
    apply some_ready_spec in E as [i Hi]. rewrite H in Hi. done.
Qed.

(** Once filepath.Walk has returned, nothing is offered or visited any more. *)



(** ** Precondition and entry points *)

(** C3: with [limit < 1] the call panics at line 38 and does nothing else: no
    channel is made, no goroutine is started, the discovery primitive and the
    visitor are never called, and no value is returned. *)
Theorem WalkLimit_bad_limit_panics limit sched s :
  limit < 1 ->
  WalkLimit limit sched = Some s ->
  WalkLimit limit [AMain] = Some (do_panic (PanicString limit_message) init) /\
  ((sched = [] /\ s = init) \/
   (sched = [AMain] /\ s = do_panic (PanicString limit_message) init)) /\
  made_chans s = false /\ workers s = [] /\ monitor s = MNotStarted /\
  disc s = DNotStarted /\ visited s = [] /\ offered s = [] /\
  (forall r, main s <> MainReturned r).
Proof.
  intros Hl H. apply Z.ltb_lt in Hl.
  assert (Hstart : step limit AMain init = Some (do_panic (PanicString limit_message) init)).
  { unfold step, step_main. cbn. by rewrite Hl. }
  assert (Hcases : (sched = [] /\ s = init) \/
                   (sched = [AMain] /\ s = do_panic (PanicString limit_message) init)).
  { unfold WalkLimit in H. destruct sched as [|a sched]; simpl in H.
    - left. by simplify_eq.
    - right. destruct a; try (cbn in H; discriminate H).
      rewrite Hstart in H. destruct sched as [|b sched]; simpl in H; [by simplify_eq|].
      destruct b; cbn in H; discriminate H. }
  split. { unfold WalkLimit. simpl. by rewrite Hstart. }
  split; [done|].
  destruct Hcases as [[_ ->]|[_ ->]]; cbn; repeat split; done.
Qed.

(** C4: [Walk] is [WalkLimit] with the limit [DefaultConcurrentWalks], which
    is 50: under every schedule the two reach the same state, hence make the
    same visitor calls and return the same value. *)
Theorem Walk_is_WalkLimit_50 sched :
  Walk sched = WalkLimit 50 sched /\ DefaultConcurrentWalks = 50 /\
  (forall r, (exists s, Walk sched = Some s /\ main s = MainReturned r) <-> returns 50 sched r).
Proof. repeat split; done. Qed.

(** ** The two channels that get closed *)


(** C6, as the code has it: files is closed at most once, by the discoverer
    and only when its callback finds kill closed (line 79); when filepath.Walk
    runs to its end, files is never closed. *)
Theorem files_closed_at_most_once limit s :
  reachable limit s ->
  (files_closes s <= 1)%nat /\
  (files_closed s = true <-> files_closes s = 1%nat) /\
  (files_closed s = true <-> walk_result s = Some (Some WalkAbort)) /\
  (files_closed s = true -> kill_closed s = true) /\
  (walk_result s = Some None -> files_closed s = false /\ files_closes s = 0%nat) /\
  (forall a s', step limit a s = Some s' -> files_closes s' <> files_closes s ->
     (exists c, a = ADisc c) /\ kill_closed s = true /\
     (exists x rest, disc s = DCallback (x :: rest)) /\
     files_closes s = 0%nat /\ files_closes s' = 1%nat /\
     disc s' = DWalkReturned (Some WalkAbort)).
Proof.
  intros Hr.
  destruct (files_cases _ _ Hr) as [(Hc & Hn & Hw)|(Hc & Hn & Hw & Hk & Hd)].
  - split; [lia|]. split; [split; congruence|]. split; [split; congruence|].
    split; [congruence|]. split; [done|].
    intros a s' Hstep Hne. clear Hr Hw.
    destruct s as [ws mon d mn mc fc kc we pn vis off kcl fcs wr]. cbn in *. subst.
    destruct a; step_inv Hstep; try done. eauto 10.
  - split; [lia|]. split; [done|]. split; [done|]. split; [done|].
    split; [congruence|].
    intros a s' Hstep Hne. clear Hr.
    destruct s as [ws mon d mn mc fc kc we pn vis off kcl fcs wr]. cbn in *. subst.
    destruct a; step_inv Hstep; try done; destruct Hd; done.
Qed.

(** ** The discoverer *)

(** C2: at the inner select (line 82) the discoverer never blocks.  If a
    worker is ready to receive, the entry is handed to it and default cannot
    be taken; if none is, the entry is skipped: discovery moves on to the next
    entry and nothing else in the state changes, so neither the caller nor the
    visitor learns of it. *)
Theorem delivery_is_nonblocking limit s a rest :
  reachable limit s -> panicked s = None -> disc s = DDeliver a rest ->
  (forall i, ready_worker s i = true ->
     step limit (ADisc (Some i)) s =
       Some (set_disc (DCallback rest)
               (add_offered a (add_visited a (set_workers (<[i:=WCall a]> (workers s)) s)))) /\
     step limit (ADisc None) s = None) /\
  ((forall i, ready_worker s i = false) ->
     step limit (ADisc None) s = Some (set_disc (DCallback rest) (add_offered a s)) /\
     (forall i, step limit (ADisc (Some i)) s = None)) /\
  (exists c s', step limit (ADisc c) s = Some s' /\ panicked s' = None /\
     walkErr s' = walkErr s /\ main s' = main s /\ monitor s' = monitor s /\
     disc s' = DCallback rest).
Proof.
  intros Hr Hp Hd.
  assert (Hf : files_closed s = false) by (eapply running_files_open; eauto).
  unfold step, step_disc. rewrite Hp, Hd, Hf.
  assert (H1 : forall i, ready_worker s i = true -> some_ready s = true).
  { intros i Hi. apply some_ready_spec. eauto. }
  split; [|split].
  - intros i Hi. rewrite Hi, (H1 _ Hi). done.
  - intros Hn. apply some_ready_false in Hn as Hs. rewrite Hs. split; [done|].
    intros i. by rewrite Hn.
  - destruct (some_ready s) eqn:Hs.
    + apply some_ready_spec in Hs as [i Hi]. exists (Some i). rewrite Hi.
      eexists. split; [done|]. by cbn.
    + exists None. eexists. split; [done|]. by cbn.
Qed.


(** ** What the call returns *)

Lemma visited_discovered limit s a :
  reachable limit s -> a ∈ visited s -> a ∈ discover root.
Proof.
  intros Hr Ha. destruct (entries_inv_reachable _ _ Hr) as [Hd Hv].
  apply Hv in Ha. destruct (disc s); hyp_cases;
    try (rewrite <- Hd || rewrite <- H); try (apply elem_of_app; by left).
  rewrite Hd in Ha. by apply elem_of_nil in Ha.
Qed.

Lemma returned_cases limit s r :
  reachable limit s -> main s = MainReturned r ->
  r = None \/ (r = walkErr s /\ exists e, r = Some e /\ from_visitor s e).
Proof.
  intros Hr Hm. destruct (control_inv_reachable _ _ Hr) as (_ & _ & [_ Hw] & _).
  destruct (error_inv_reachable _ _ Hr) as (_ & _ & _ & _ & He).
  rewrite Hm in Hw. destruct Hw as [?|Hw]; [by left|].
  destruct r as [e|]; [|by left]. right. split; [done|]. exists e. split; [done|].
  by apply He.
Qed.


(** C10: the value made by [errors.New] at line 80 only ends filepath.Walk.
    The discoverer drops what filepath.Walk returns, whatever it is, and the
    result of the call is nil or the result of a visitor call on a discovered
    entry; a visitor cannot produce the line-80 value, so it is never
    returned. *)
Theorem walk_abort_is_discarded limit s r :
  reachable limit s -> main s = MainReturned r ->
  (r = None \/
   exists a e, r = Some e /\ a ∈ visited s /\ a ∈ discover root /\ walkFn a = Some e) /\
  ((forall a, walkFn a <> Some WalkAbort) -> r <> Some WalkAbort) /\
  (forall s0 w c, panicked s0 = None -> disc s0 = DWalkReturned w ->
     step limit (ADisc c) s0 = Some (set_disc DDone s0)).
Proof.
  intros Hr Hm.
  assert (H : r = None \/
     exists a e, r = Some e /\ a ∈ visited s /\ a ∈ discover root /\ walkFn a = Some e).
  { destruct (returned_cases _ _ _ Hr Hm) as [?|(_ & e & -> & a & Ha & Hf)]; [by left|].
    right. exists a, e. repeat split; try done. by eapply visited_discovered. }
  split; [done|]. split.
  - intros Hno ->. destruct H as [?|(a & e & ? & _ & _ & Hf)]; [done|].
    simplify_eq. by apply (Hno a).
  - intros s0 w c Hp Hd. unfold step, step_disc. by rewrite Hp, Hd.
Qed.


Lemma existsb_parked_replicate n : existsb is_parked (replicate n WSelect) = false.
Proof. induction n; [done|]. done. Qed.

Lemma drop_sched_S n : drop_sched (S n) = [ADisc None; ADisc None] ++ drop_sched n.
Proof.
  unfold drop_sched. replace (2 * S n)%nat with (S (S (2 * n))) by lia. done.
Qed.

Lemma drop_one_run limit a rest ws mon mn mc we vis off kcl fcs wr :
  existsb is_parked ws = false ->
  run limit [ADisc None; ADisc None]
      (mkState ws mon (DCallback (a :: rest)) mn mc false false we None vis off kcl fcs wr) =
  Some (mkState ws mon (DCallback rest) mn mc false false we None vis (off ++ [a]) kcl fcs wr).
Proof.
  intros Hws. cbn. unfold some_ready. cbn. by rewrite Hws.
Qed.

Lemma drop_sched_run limit pre rest ws mon mn mc we vis off kcl fcs wr :
  existsb is_parked ws = false ->
  run limit (drop_sched (length pre))
      (mkState ws mon (DCallback (pre ++ rest)) mn mc false false we None vis off kcl fcs wr) =
  Some (mkState ws mon (DCallback rest) mn mc false false we None vis (off ++ pre) kcl fcs wr).
Proof.
  intros Hws. revert off. induction pre as [|a pre IH]; intros off.
  - cbn. by rewrite app_nil_r.
  - cbn [length]. rewrite drop_sched_S, run_app. cbn [app].
    rewrite drop_one_run by done. rewrite IH. by rewrite <- (assoc_L (++)).
Qed.

Lemma run_spawn limit sched :
  1 <= limit ->
  run limit (AMain :: sched) init =
  run limit sched
    (mkState (replicate (Z.to_nat limit) WSelect) MSelect (DCallback (discover root)) MainWait
             true false false None None [] [] [] 0%nat None).
Proof.
  intros Hl. assert (Hlt : (limit <? 1) = false) by (apply Z.ltb_ge; lia).
  cbn [run]. unfold step, step_main. cbn [panicked main init]. by rewrite Hlt.
Qed.

Lemma sched_nil_returns limit :
  1 <= limit -> returns limit (sched_nil (length (discover root))) None.
Proof.
  intros Hl. unfold returns, WalkLimit, sched_nil.
  rewrite run_spawn, run_app by done.
  assert (Hrun := drop_sched_run limit (discover root) [] (replicate (Z.to_nat limit) WSelect)
            MSelect MainWait true None [] [] [] 0%nat None (existsb_parked_replicate _)).
  rewrite app_nil_r in Hrun. rewrite Hrun.
  cbn. eexists. split; [done|]. done.
Qed.

Lemma handoff_run limit ws a post vis off :
  run limit [AWorker 0 false; ADisc None; ADisc (Some 0%nat)]
    (mkState (WSelect :: ws) MSelect (DCallback (a :: post)) MainWait
             true false false None None vis off [] 0%nat None) =
  Some (mkState (WCall a :: ws) MSelect (DCallback post) MainWait
             true false false None None (vis ++ [a]) (off ++ [a]) [] 0%nat None).
Proof. reflexivity. Qed.

Lemma report_run limit ws a post vis off e :
  walkFn a = Some e ->
  run limit [AWorker 0 false; AMonitor (Some 0%nat); AMonitor None; AMonitor None]
    (mkState (WCall a :: ws) MSelect (DCallback post) MainWait
             true false false None None vis off [] 0%nat None) =
  Some (mkState (WSelect :: ws) MReturned (DCallback post) MainWait
             true false true (Some e) None vis off [GMonitor] 0%nat None).
Proof. intros Ha. cbn. rewrite Ha. reflexivity. Qed.

Lemma wind_up_run limit ws post vis off e :
  exists fc fcs wr,
    run limit [ADisc None; ADisc None]
      (mkState (WSelect :: ws) MReturned (DCallback post) MainWait
               true false true (Some e) None vis off [GMonitor] 0%nat None) =
    Some (mkState (WSelect :: ws) MReturned DDone MainWait
               true fc true (Some e) None vis off [GMonitor] fcs wr).
Proof. destruct post; do 3 eexists; reflexivity. Qed.

Lemma return_error_run limit ws vis off e fc fcs wr :
  run limit [AMain; AMain; AMain]
    (mkState (WSelect :: ws) MReturned DDone MainWait
             true fc true (Some e) None vis off [GMonitor] fcs wr) =
  Some (mkState (WSelect :: ws) MReturned DDone (MainReturned (Some e))
             true fc true (Some e) None vis off [GMonitor] fcs wr).
Proof. reflexivity. Qed.

Lemma sched_err_returns limit pre a post e :
  1 <= limit -> discover root = pre ++ a :: post -> walkFn a = Some e ->
  returns limit (sched_err (length pre)) (Some e).
Proof.
  intros Hl Hd Ha. unfold returns, WalkLimit, sched_err.
  rewrite run_spawn, run_app, Hd by done.
  rewrite drop_sched_run by apply existsb_parked_replicate.
  destruct (Z.to_nat limit) as [|m] eqn:E; [lia|]. cbn [replicate].
  change [AWorker 0 false; ADisc None; ADisc (Some 0%nat); AWorker 0 false;
          AMonitor (Some 0%nat); AMonitor None; AMonitor None;
          ADisc None; ADisc None; AMain; AMain; AMain]
    with ([AWorker 0 false; ADisc None; ADisc (Some 0%nat)] ++
          [AWorker 0 false; AMonitor (Some 0%nat); AMonitor None; AMonitor None] ++
          [ADisc None; ADisc None] ++ [AMain; AMain; AMain]).
  rewrite run_app, handoff_run, run_app, (report_run _ _ _ _ _ _ e), run_app by done.
  destruct (wind_up_run limit (replicate m WSelect) post ([] ++ [a]) (([] ++ pre) ++ [a]) e)
    as (fc & fcs & wr & ->).
  rewrite return_error_run. eexists. split; [done|]. done.
Qed.

Lemma in_flight_bound limit s :
  reachable limit s -> (in_flight s <= Z.to_nat limit)%nat.
Proof.
  intros Hr. destruct (control_inv_reachable _ _ Hr) as (Hs & _).
  unfold in_flight. etrans; [apply length_filter|].
  unfold start_inv in Hs. destruct (main s); hyp_cases;
    try match goal with H : workers s = [] |- _ => rewrite H; cbn end; lia.
Qed.


(** ** Return value and outcomes *)


(** C8, as the code has it: with [limit = 1] at most one visitor call runs at
    any time.  The result of a call is not a function of tree and visitor:
    nil can always be returned, and a non-nil value can be returned exactly
    when the visitor fails on some entry.  This set of possible outcomes is
    the same for limit 1 and for every higher limit. *)
Theorem limit_one_serial_same_outcomes limit :
  1 <= limit ->
  (forall s, reachable 1 s -> (in_flight s <= 1)%nat) /\
  (forall b, may_return 1 b <-> may_return limit b) /\
  may_return limit true /\
  (may_return limit false <-> exists a, a ∈ discover root /\ walkFn a <> None).
Proof.
  intros Hl.
  assert (Hnil : forall n, 1 <= n -> may_return n true).
  { intros n Hn. exists (sched_nil (length (discover root))), None.
    split; [by apply sched_nil_returns|done]. }
  assert (Herr : forall n, 1 <= n ->
            may_return n false <-> exists a, a ∈ discover root /\ walkFn a <> None).
  { intros n Hn. split.
    - intros (sched & r & (s & Hrun & Hm) & Hb).
      assert (Hr : reachable n s) by (by exists sched).
      destruct (returned_cases _ _ _ Hr Hm) as [->|(_ & e & -> & a & Ha & Hf)]; [done|].
      exists a. split; [by eapply visited_discovered|congruence].
    - intros (a & Ha & Hf). apply list_elem_of_split in Ha as (pre & post & Hd).
      destruct (walkFn a) as [e|] eqn:E; [|done].
      exists (sched_err (length pre)), (Some e). split; [|done].
      by eapply sched_err_returns. }
  split; [|split; [|split]].
  - intros s Hr. by apply in_flight_bound in Hr.
  - intros [].
    + split; intros _; by apply Hnil.
    + rewrite !Herr by done. done.
  - by apply Hnil.
  - by apply Herr.
Qed.


(** ** The caller is never held up by workers or monitor *)

Lemma disc_wind_up limit s r :
  panicked s = None -> main s = MainWait -> disc s = DWalkReturned r ->
  exists s', run limit [ADisc None] s = Some s' /\
    panicked s' = None /\ main s' = MainWait /\ disc s' = DDone.
Proof.
  intros Hp Hm Hd. cbn [run]. unfold step, step_disc. rewrite Hp, Hd.
  eexists. split; [reflexivity|]. cbn. auto.
Qed.

Lemma disc_finishes limit rest s :
  reachable limit s -> panicked s = None -> main s = MainWait -> disc s = DCallback rest ->
  exists sched s', run limit sched s = Some s' /\
    panicked s' = None /\ main s' = MainWait /\ disc s' = DDone.
Proof.
  revert s. induction rest as [|a rest IH]; intros s Hr Hp Hm Hd.
  - destruct (disc_wind_up limit (set_disc (DWalkReturned None) (set_walk_result None s)) None)
      as (s' & Hrun & ?); [done..|].
    exists [ADisc None; ADisc None], s'. split; [|done].
    cbn [run]. unfold step at 1, step_disc. rewrite Hp, Hd. exact Hrun.
  - assert (Hf : files_closed s = false) by (eapply running_files_open; eauto).
    destruct (kill_closed s) eqn:Hk.
    + destruct (disc_wind_up limit
                  (close_files (fun s' => set_disc (DWalkReturned (Some WalkAbort))
                                            (set_walk_result (Some WalkAbort) s')) s)
                  (Some WalkAbort)) as (s' & Hrun & ?);
        [unfold close_files; rewrite Hf; done..|].
      exists [ADisc None; ADisc None], s'. split; [|done].
      cbn [run]. unfold step at 1, step_disc. rewrite Hp, Hd, Hk. exact Hrun.
    + assert (H1 : step limit (ADisc None) s = Some (set_disc (DDeliver a rest) s)).
      { unfold step, step_disc. by rewrite Hp, Hd, Hk. }
      assert (Hr1 := reachable_step _ _ _ _ Hr H1).
      assert (H2 : exists c s2, step limit (ADisc c) (set_disc (DDeliver a rest) s) = Some s2 /\
                     panicked s2 = None /\ main s2 = MainWait /\ disc s2 = DCallback rest).
      { unfold step, step_disc. cbn [panicked disc files_closed set_disc]. rewrite Hp, Hf.
        destruct (some_ready (set_disc (DDeliver a rest) s)) eqn:Hs.
        - apply some_ready_spec in Hs as Hi. destruct Hi as [i Hi]. exists (Some i).
          rewrite Hi. eexists. split; [reflexivity|]. cbn. auto.
        - exists None. eexists. split; [reflexivity|]. cbn. auto. }
      destruct H2 as (c & s2 & H2 & Hp2 & Hm2 & Hd2).
      destruct (IH s2 (reachable_step _ _ _ _ Hr1 H2) Hp2 Hm2 Hd2) as (sched & s' & Hrun & ?).
      exists (ADisc None :: ADisc c :: sched), s'. split; [|done].
      cbn [run]. by rewrite H1, H2.
Qed.

Lemma caller_returns limit s :
  reachable limit s -> panicked s = None -> main s = MainWait -> disc s = DDone ->
  exists sched s' r, run limit sched s = Some s' /\
    main s' = MainReturned r /\ panicked s' = None.
Proof.
  intros Hr Hp Hm Hd.
  assert (Hk : walkErr s = None -> kill_closed s = false).
  { intros Hw. destruct (kill_cases _ _ Hr) as [[? _]|[(_ & _ & _ & ?)|(_ & _ & [?|[? ?]])]];
      [done|congruence..]. }
  clear Hr. destruct s as [ws mon d mn mc fc kc we pn vis off kcl fcs wr]. cbn in *. subst.
  destruct we as [e|].
  - exists [AMain; AMain; AMain]. do 2 eexists. split; [reflexivity|]. done.
  - rewrite Hk by done. exists [AMain; AMain; AMain; AMain]. do 2 eexists.
    split; [reflexivity|]. done.
Qed.

(** While the caller is at [wg.Wait()] and nothing has panicked, the
    discoverer and the caller can run to the return on their own, whatever
    the workers and the monitor have done. *)
Lemma can_return limit s :
  reachable limit s -> panicked s = None -> main s = MainWait ->
  exists sched s' r, run limit sched s = Some s' /\
    main s' = MainReturned r /\ panicked s' = None.
Proof.
  intros Hr Hp Hm.
  assert (Hfin : exists sched s1, run limit sched s = Some s1 /\
            panicked s1 = None /\ main s1 = MainWait /\ disc s1 = DDone).
  { destruct (disc s) as [|rest|a rest|r|] eqn:Hd.
    - destruct (control_inv_reachable _ _ Hr) as (Hs & _). unfold start_inv in Hs.
      rewrite Hm, Hd in Hs. by destruct Hs as (_ & _ & _ & _ & []).
    - by eapply disc_finishes.
    - assert (Hf : files_closed s = false) by (eapply running_files_open; eauto).
      assert (H2 : exists c s2, step limit (ADisc c) s = Some s2 /\
                     panicked s2 = None /\ main s2 = MainWait /\ disc s2 = DCallback rest).
      { unfold step, step_disc. rewrite Hp, Hd, Hf.
        destruct (some_ready s) eqn:Hs.
        - apply some_ready_spec in Hs as Hi. destruct Hi as [i Hi]. exists (Some i).
          rewrite Hi. eexists. split; [reflexivity|]. cbn. auto.
        - exists None. eexists. split; [reflexivity|]. cbn. auto. }
      destruct H2 as (c & s2 & H2 & Hp2 & Hm2 & Hd2).
      destruct (disc_finishes limit rest s2 (reachable_step _ _ _ _ Hr H2) Hp2 Hm2 Hd2)
        as (sched & s' & Hrun & ?).
      exists (ADisc c :: sched), s'. split; [|done]. cbn [run]. by rewrite H2.
    - destruct (disc_wind_up limit s r Hp Hm Hd) as (s' & ? & ?). eauto.
    - exists [], s. by cbn. }
  destruct Hfin as (sched1 & s1 & Hrun1 & Hp1 & Hm1 & Hd1).
  destruct (caller_returns limit s1 (reachable_run _ _ _ _ Hr Hrun1) Hp1 Hm1 Hd1)
    as (sched2 & s2 & r & Hrun2 & ?).
  exists (sched1 ++ sched2), s2, r. split; [|done]. by rewrite run_app, Hrun1.
Qed.

Lemma panic_inv_reachable limit s : reachable limit s -> panic_inv limit s.
Proof.
  revert s. apply (reachable_ind limit (panic_inv limit)).
  - done.
  - intros a s s' Hr _ Hstep.
    destruct (control_inv_reachable _ _ Hr) as (_ & _ & _ & Hf).
    unfold panic_inv, files_inv in *. clear Hr.
    destruct s as [ws mon d mn mc fc kc we pn vis off kcl fcs wr].
    destruct a; step_inv Hstep; try done; try (apply Z.ltb_lt in Heqb; done); eauto;
      hyp_cases; eauto.
Qed.


Lemma exit_inv_reachable limit s : reachable limit s -> exit_inv s.
Proof.
  revert s. apply (reachable_ind limit exit_inv).
  - cbv. intuition congruence.
  - intros a s s' Hr (H1 & H2 & H3) Hstep.
    destruct (control_inv_reachable _ _ Hr) as (Hs & Hk & _ & Hf).
    destruct (entries_inv_reachable _ _ Hr) as (He & _).
    unfold exit_inv, start_inv, kill_inv, entries_inv, files_inv in *. clear Hr.
    destruct s as [ws mon d mn mc fc kc we pn vis off kcl fcs wr].
    destruct a; step_inv Hstep; hyp_cases; simplify_eq; cbn;
      rewrite ?app_nil_r in *;
      try match goal with |- context [match ?x with _ => _ end] => destruct x end;
      intuition (eauto; congruence).
Qed.

(** ** The worker pool *)

(** X1: the doc comment of [WalkLimit] (lines 31-33) holds: at no time are
    more than [limit] visitor calls running, and once the goroutines are
    started there are exactly [limit] workers, for good. *)
Theorem at_most_limit_calls_in_flight limit s :
  reachable limit s ->
  (in_flight s <= Z.to_nat limit)%nat /\
  (made_chans s = true -> 1 <= limit /\ length (workers s) = Z.to_nat limit).
Proof.
  intros Hr. split; [by apply in_flight_bound|].
  destruct (control_inv_reachable _ _ Hr) as (Hs & _). unfold start_inv in Hs.
  intros Hm. destruct (main s); hyp_cases; try done; congruence.
Qed.


(** X4: a nil result means that discovery ran to its end.  filepath.Walk
    returned nil after enumerating the whole tree, files was never closed, and
    kill was closed by the caller (line 96), which releases the idle
    workers. *)
Theorem nil_return_means_walk_completed limit s :
  reachable limit s -> main s = MainReturned None ->
  kill_closed s = true /\ kill_closers s = [GMain] /\ disc s = DDone /\
  walk_result s = Some None /\ offered s = discover root /\ files_closed s = false.
Proof.
  intros Hr Hm.
  destruct (exit_inv_reachable _ _ Hr) as (H1 & H2 & H3). rewrite Hm in H3.
  destruct (control_inv_reachable _ _ Hr) as (Hs & _ & _ & Hf).
  unfold start_inv in Hs. rewrite Hm in Hs. destruct Hs as (_ & _ & _ & _ & Hd).
  assert (Hfc : files_closed s = false).
  { destruct (files_closed s); [|done]. specialize (H1 eq_refl). congruence. }
  assert (Hw : walk_result s = Some None).
  { unfold files_inv in Hf. rewrite Hd, Hfc in Hf.
    destruct (walk_result s) as [[[]|]|]; hyp_cases; done. }
  destruct (kill_cases _ _ Hr) as [[_ ?]|[(_ & ? & _)|(? & _)]]; [congruence..|].
  auto 10.
Qed.

(** ** Visitors that never fail *)

(** X5: with a visitor that returns nil on every entry of the tree nothing
    goes wrong: no state of any execution has panicked, walkErr stays nil, no
    worker ever tries to report an error, kill is closed by the caller only,
    files is never closed, and a result, if there is one, is nil. *)
Theorem harmless_visitor_never_panics limit s :
  1 <= limit -> (forall a, a ∈ discover root -> walkFn a = None) ->
  reachable limit s ->
  panicked s = None /\ walkErr s = None /\ files_closed s = false /\
  (forall i e, workers s !! i <> Some (WSendErr e)) /\
  (kill_closers s = [] \/ kill_closers s = [GMain]) /\
  (forall r, main s = MainReturned r -> r = None).
Proof.
  intros Hl Hok Hr.
  assert (Hno : forall e, ~ from_visitor s e).
  { intros e (a & Ha & Hf). rewrite Hok in Hf; [done|]. by eapply visited_discovered. }
  destruct (error_inv_reachable _ _ Hr) as (_ & Hse & Hma & Hwe & _).
  assert (Hw : walkErr s = None).
  { destruct (walkErr s) as [e|] eqn:E; [|done]. by destruct (Hno e (Hwe e eq_refl)). }
  assert (Hk : kill_closers s = [] \/ kill_closers s = [GMain]).
  { destruct (kill_cases _ _ Hr) as [[_ ?]|[(_ & _ & _ & ?)|(_ & ? & _)]]; auto. done. }
  assert (Hf : files_closed s = false).
  { destruct (files_closed s) eqn:E; [|done].
    destruct (exit_inv_reachable _ _ Hr) as (H1 & _). specialize (H1 E).
    destruct Hk; congruence. }
  assert (Hm : monitor s <> MCloseKill).
  { intros E. destruct (control_inv_reachable _ _ Hr) as (_ & _ & [Hwi _] & _).
    rewrite E in Hwi. done. }
  split; [|split; [done|split; [done|split; [|split; [done|]]]]].
  - assert (Hp := panic_inv_reachable _ _ Hr). unfold panic_inv in Hp.
    destruct (panicked s) as [[]|]; [| | |by destruct Hp as [? _]; congruence|done].
    + destruct Hp as (_ & ? & _). lia.
    + destruct Hp as (Hkc & [Hmc|Hmc]); [|done].
      destruct (kill_cases _ _ Hr)
        as [[? _]|[(_ & _ & _ & ?)|(_ & _ & [?|[? ?]])]]; congruence.
    + done.
  - intros i e Hi. by destruct (Hno e (Hse i e Hi)).
  - intros r Hret. destruct (returned_cases _ _ _ Hr Hret) as [?|[? _]]; congruence.
Qed.

(** ** Progress and cancellation *)

(** X6: the caller is never held up by workers or monitor.  From the start,
    and as long as the caller has not got past [wg.Wait()] and nothing has
    panicked, the discoverer and the caller can run to the return on their
    own, whatever the other goroutines have done. *)
Theorem caller_can_always_return limit s :
  1 <= limit -> reachable limit s -> panicked s = None ->
  main s = MainLimitCheck \/ main s = MainWait ->
  exists sched s' r, run limit sched s = Some s' /\
    main s' = MainReturned r /\ panicked s' = None.
Proof.
  intros Hl Hr Hp [Hm|Hm]; [|by apply can_return].
  assert (H1 : step limit AMain s = Some (spawn limit s)).
  { unfold step, step_main. rewrite Hp, Hm.
    by replace (limit <? 1) with false by (symmetry; apply Z.ltb_ge; lia). }
  destruct (can_return limit (spawn limit s)) as (sched & s' & r & Hrun & ?).
  - by eapply reachable_step.
  - done.
  - done.
  - exists (AMain :: sched), s', r. split; [|done]. cbn [run]. by rewrite H1.
Qed.

Lemma kill_closed_step limit a s s' :
  kill_closed s = true -> step limit a s = Some s' ->
  kill_closed s' = true /\ visited s' = visited s /\
  (forall i x, workers s' !! i = Some (WCall x) -> workers s !! i = Some (WCall x)).
Proof.
  intros Hk Hstep. destruct s as [ws mon d mn mc fc kc we pn vis off kcl fcs wr].
  cbn in Hk. subst.
  destruct a; step_inv Hstep; try done; (split; [done|split; [done|]]); intros j x Hj;
    try done;
    try (apply list_lookup_insert_Some in Hj; destruct Hj as [(? & ? & ?)|(? & ?)]; by simplify_eq).
  all: try (apply lookup_replicate in Hj; by destruct Hj).
  all: try (unfold ready_worker in *; cbn in *; done).
Qed.


Lemma blocked_sender_step limit a s s' i e :
  reachable limit s -> monitor s <> MSelect -> workers s !! i = Some (WSendErr e) ->
  step limit a s = Some s' ->
  monitor s' <> MSelect /\ workers s' !! i = Some (WSendErr e).
Proof.
  intros Hr Hm Hw Hstep.
  assert (Hmain : main s <> MainLimitCheck).
  { intros E. destruct (control_inv_reachable _ _ Hr) as (Hs & _). unfold start_inv in Hs.
    rewrite E in Hs. destruct Hs as (Hs & _). by rewrite Hs in Hw. }
  clear Hr. destruct s as [ws mon d mn mc fc kc we pn vis off kcl fcs wr]. cbn in *.
  destruct a; step_inv Hstep; try done; (split; [done|]); try done.
  all: try (rewrite list_lookup_insert_ne; [done|]; intros ->; congruence).
  unfold ready_worker in *. cbn in *. destruct kc; [done|]. cbn in *.
  rewrite list_lookup_insert_ne; [done|]. intros ->. by rewrite Hw in *.
Qed.

(** X10: the monitor takes one error only.  Once it has received one, a
    worker whose visitor call failed stays blocked at [errs <- err] (line 51)
    in every continuation: its error is never received and the goroutine
    never ends. *)
Theorem late_error_is_never_delivered limit sched s s' i e :
  reachable limit s -> monitor s <> MSelect -> workers s !! i = Some (WSendErr e) ->
  run limit sched s = Some s' ->
  workers s' !! i = Some (WSendErr e) /\ monitor s' <> MSelect /\
  (forall a, step limit a s' <> None -> a <> AWorker i true /\ a <> AWorker i false).
Proof.
  revert s. induction sched as [|a sched IH]; intros s Hr Hm Hw Hrun; simpl in Hrun.
  - simplify_eq. split; [done|]. split; [done|].
    intros a Ha. unfold step, step_worker in Ha.
    split; intros ->; destruct (panicked s'); try done; by rewrite Hw in Ha.
  - destruct (step limit a s) as [s1|] eqn:E; [|done].
    destruct (blocked_sender_step _ _ _ _ _ _ Hr Hm Hw E) as [Hm1 Hw1].
    apply (IH s1); [by eapply reachable_step|done..].
Qed.

(** ** Panics *)

(** X11: the only panics.  A panicked state is one of three: the limit check
    (line 38, only with [limit < 1]); a second [close(kill)], by the caller at
    line 96 or by the monitor at line 66; or a worker that evaluated its
    select with files closed and took the nil value (line 50).  files is
    never closed twice and nothing is ever sent on it after it was closed. *)
Theorem panics_are_of_three_kinds limit s v :
  reachable limit s -> panicked s = Some v ->
  (v = PanicString limit_message /\ limit < 1 /\ main s = MainLimitCheck) \/
  (v = CloseOfClosedChannel /\ kill_closed s = true /\
   (main s = MainCloseKill \/ monitor s = MCloseKill)) \/
  (v = NilDereference /\ files_closed s = true /\ kill_closed s = true /\
   exists i, workers s !! i = Some WSelect).
Proof.
  intros Hr Hp. assert (H := panic_inv_reachable _ _ Hr). unfold panic_inv in H.
  rewrite Hp in H. destruct v as [m| | |].
  - left. destruct H as (-> & ? & ?). done.
  - right. left. destruct H as (? & ?). done.
  - done.
  - right. right. destruct H as (Hf & ?).
    destruct (files_cases _ _ Hr) as [(? & _)|(_ & _ & _ & ? & _)]; [congruence|]. done.
Qed.

(** ** Executions that panic, executions that visit nothing *)

Lemma fail_run limit ws a post vis off e :
  walkFn a = Some e ->
  run limit [AWorker 0 false]
    (mkState (WCall a :: ws) MSelect (DCallback post) MainWait
             true false false None None vis off [] 0%nat None) =
  Some (mkState (WSendErr e :: ws) MSelect (DCallback post) MainWait
             true false false None None vis off [] 0%nat None).
Proof. intros Ha. cbn. rewrite Ha. reflexivity. Qed.

Lemma double_close_run limit ws vis off e :
  run limit [ADisc None; ADisc None; AMain; AMain;
             AMonitor (Some 0%nat); AMonitor None; AMonitor None; AMain]
    (mkState (WSendErr e :: ws) MSelect (DCallback []) MainWait
             true false false None None vis off [] 0%nat None) =
  Some (mkState (WSelect :: ws) MReturned DDone MainCloseKill
             true false true (Some e) (Some CloseOfClosedChannel) vis off
             [GMonitor] 0%nat (Some None)).
Proof. reflexivity. Qed.

Lemma nil_deref_run limit ws b post vis off e :
  run limit [ADisc None; AWorker 0 true]
    (mkState (WSelect :: ws) MReturned (DCallback (b :: post)) MainWait
             true false true (Some e) None vis off [GMonitor] 0%nat None) =
  Some (mkState (WSelect :: ws) MReturned (DWalkReturned (Some WalkAbort)) MainWait
             true true true (Some e) (Some NilDereference) vis off
             [GMonitor] 1%nat (Some (Some WalkAbort))).
Proof. reflexivity. Qed.

(** X8: the two [close(kill)] statements can both run.  For every
    [limit >= 1] and every tree on which the visitor fails for some entry
    there is an execution in which the caller, having read a nil walkErr,
    closes kill after the monitor did and panics instead of returning. *)
Theorem kill_can_be_closed_twice limit pre a post e :
  1 <= limit -> discover root = pre ++ a :: post -> walkFn a = Some e ->
  exists s, WalkLimit limit (sched_double_close (length pre) (length post)) = Some s /\
    panicked s = Some CloseOfClosedChannel /\ main s = MainCloseKill /\
    kill_closers s = [GMonitor] /\ walkErr s = Some e.
Proof.
  intros Hl Hd Ha. unfold WalkLimit, sched_double_close.
  rewrite run_spawn, run_app, Hd by done.
  rewrite drop_sched_run by apply existsb_parked_replicate.
  destruct (Z.to_nat limit) as [|m] eqn:E; [lia|]. cbn [replicate].
  change [AWorker 0 false; ADisc None; ADisc (Some 0%nat); AWorker 0 false]
    with ([AWorker 0 false; ADisc None; ADisc (Some 0%nat)] ++ [AWorker 0 false]).
  rewrite <- (assoc_L (++)), run_app, handoff_run, run_app, (fail_run _ _ _ _ _ _ e) by done.
  rewrite run_app.
  assert (Hdrop := drop_sched_run limit post [] (WSendErr e :: replicate m WSelect) MSelect
            MainWait true None ([] ++ [a]) (([] ++ pre) ++ [a]) [] 0%nat None).
  rewrite app_nil_r in Hdrop. rewrite Hdrop by apply existsb_parked_replicate.
  rewrite double_close_run. eexists. split; [reflexivity|]. done.
Qed.

(** X9: a worker can dereference nil.  For every [limit >= 1] and every tree
    on which the visitor fails for an entry that is not the last one, there
    is an execution in which files gets closed (line 79) and a worker then
    receives nil from it (line 49) and panics at [file.path] (line 50). *)
Theorem worker_can_dereference_nil limit pre a b post e :
  1 <= limit -> discover root = pre ++ a :: b :: post -> walkFn a = Some e ->
  exists s, WalkLimit limit (sched_nil_deref (length pre)) = Some s /\
    panicked s = Some NilDereference /\ files_closed s = true /\
    workers s !! 0%nat = Some WSelect /\ visited s = [a].
Proof.
  intros Hl Hd Ha. unfold WalkLimit, sched_nil_deref.
  rewrite run_spawn, run_app, Hd by done.
  rewrite drop_sched_run by apply existsb_parked_replicate.
  destruct (Z.to_nat limit) as [|m] eqn:E; [lia|]. cbn [replicate].
  change [AWorker 0 false; ADisc None; ADisc (Some 0%nat); AWorker 0 false;
          AMonitor (Some 0%nat); AMonitor None; AMonitor None; ADisc None; AWorker 0 true]
    with ([AWorker 0 false; ADisc None; ADisc (Some 0%nat)] ++
          [AWorker 0 false; AMonitor (Some 0%nat); AMonitor None; AMonitor None] ++
          [ADisc None; AWorker 0 true]).
  rewrite run_app, handoff_run, run_app, (report_run _ _ _ _ _ _ e) by done.
  rewrite nil_deref_run. eexists. split; [reflexivity|]. done.
Qed.

Lemma no_call_replicate n :
  length (filter (fun w => is_call w = true) (replicate n WSelect)) = 0%nat.
Proof. induction n as [|n IH]; [done|exact IH]. Qed.

Lemma finish_nil_run limit ws vis off :
  run limit [ADisc None; ADisc None; AMain; AMain; AMain; AMain]
    (mkState ws MSelect (DCallback []) MainWait
             true false false None None vis off [] 0%nat None) =
  Some (mkState ws MSelect DDone (MainReturned None)
             true false true None None vis off [GMain] 0%nat (Some None)).
Proof. reflexivity. Qed.

(** X12: nothing guarantees a visit.  For every [limit >= 1] and every tree
    there is an execution in which every entry goes through the delivery
    attempt while no worker is blocked in its select: all entries are
    skipped, the visitor is never called, and the call returns nil. *)
Theorem all_entries_can_be_dropped limit :
  1 <= limit ->
  exists s, WalkLimit limit (sched_nil (length (discover root))) = Some s /\
    main s = MainReturned None /\ visited s = [] /\ offered s = discover root /\
    panicked s = None /\ in_flight s = 0%nat.
Proof.
  intros Hl. unfold WalkLimit, sched_nil.
  rewrite run_spawn, run_app by done.
  assert (Hrun := drop_sched_run limit (discover root) [] (replicate (Z.to_nat limit) WSelect)
            MSelect MainWait true None [] [] [] 0%nat None (existsb_parked_replicate _)).
  rewrite app_nil_r in Hrun. rewrite Hrun, finish_nil_run.
  eexists. split; [reflexivity|]. cbn. repeat split; try done.
  apply no_call_replicate.
Qed.

(** X2: [Walk] always gets past the limit check: its first step starts 50
    workers, no state of [Walk] has the panic of line 38, and never more than
    50 visitor calls are running (the doc comment of [Walk], lines 19-21). *)
Theorem Walk_runs_fifty_workers sched s :
  Walk sched = Some s ->
  (exists s1, Walk [AMain] = Some s1 /\ length (workers s1) = 50%nat /\ panicked s1 = None) /\
  (in_flight s <= 50)%nat /\
  (forall m, panicked s <> Some (PanicString m)) /\
  (made_chans s = true -> length (workers s) = 50%nat).
Proof.
  intros H. assert (Hr : reachable DefaultConcurrentWalks s) by (by exists sched).
  split; [|split; [|split]].
  - eexists. split; [reflexivity|]. done.
  - by apply in_flight_bound in Hr.
  - intros m Hp. assert (Hi := panic_inv_reachable _ _ Hr). unfold panic_inv in Hi.
    rewrite Hp in Hi. by destruct Hi as (_ & ? & _).
  - intros Hm. destruct (control_inv_reachable _ _ Hr) as (Hs & _). unfold start_inv in Hs.
    destruct (main s); hyp_cases; try done; congruence.
Qed.


Lemma kill_closed_offered_step limit a s s' :
  kill_closed s = true -> step limit a s = Some s' ->
  (length (offered s') + delivering s' <= length (offered s) + delivering s)%nat.
Proof.
  intros Hk Hstep. destruct s as [ws mon d mn mc fc kc we pn vis off kcl fcs wr].
  cbn in Hk. subst. unfold delivering.
  destruct a; step_inv Hstep; rewrite ?length_app; cbn; lia.
Qed.

(** X13: cancellation reaches the discoverer within one entry.  After kill is
    closed at most one more entry goes through the delivery attempt, namely
    the one whose kill check had already passed, and none if the discoverer
    was not in the middle of an entry. *)
Theorem cancellation_is_prompt limit sched s s' :
  kill_closed s = true -> run limit sched s = Some s' ->
  (length (offered s') <= length (offered s) + delivering s)%nat /\
  (length (offered s') <= length (offered s) + 1)%nat.
Proof.
  intros Hk Hrun.
  assert (H : (length (offered s') + delivering s' <= length (offered s) + delivering s)%nat).
  { revert s Hk Hrun. induction sched as [|a sched IH]; intros s Hk Hrun; simpl in Hrun.
    - by simplify_eq.
    - destruct (step limit a s) as [s1|] eqn:E; [|done].
      assert (H1 := kill_closed_offered_step _ _ _ _ Hk E).
      destruct (kill_closed_step _ _ _ _ Hk E) as (Hk1 & _).
      specialize (IH _ Hk1 Hrun). lia. }
  assert (delivering s <= 1)%nat by (unfold delivering; destruct (disc s); lia).
  lia.
Qed.

Lemma close_after_return_run limit ws vis off e :
  run limit [ADisc None; ADisc None; AMain; AMain; AMain; AMain;
             AMonitor (Some 0%nat); AMonitor None; AMonitor None]
    (mkState (WSendErr e :: ws) MSelect (DCallback []) MainWait
             true false false None None vis off [] 0%nat None) =
  Some (mkState (WSelect :: ws) MCloseKill DDone (MainReturned None)
             true false true (Some e) (Some CloseOfClosedChannel) vis off
             [GMain] 0%nat (Some None)).
Proof. reflexivity. Qed.

(** X14: a nil result can be followed by a panic.  For every [limit >= 1] and
    every tree on which the visitor fails for some entry there is an
    execution in which the caller closes kill and returns nil, and the
    monitor then receives the error, stores it and panics at its own
    [close(kill)] (line 66). *)
Theorem monitor_can_panic_after_return limit pre a post e :
  1 <= limit -> discover root = pre ++ a :: post -> walkFn a = Some e ->
  exists s, WalkLimit limit (sched_close_after_return (length pre) (length post)) = Some s /\
    main s = MainReturned None /\ panicked s = Some CloseOfClosedChannel /\
    monitor s = MCloseKill /\ walkErr s = Some e /\ kill_closers s = [GMain].
Proof.
  intros Hl Hd Ha. unfold WalkLimit, sched_close_after_return.
  rewrite run_spawn, run_app, Hd by done.
  rewrite drop_sched_run by apply existsb_parked_replicate.
  destruct (Z.to_nat limit) as [|m] eqn:E; [lia|]. cbn [replicate].
  change [AWorker 0 false; ADisc None; ADisc (Some 0%nat); AWorker 0 false]
    with ([AWorker 0 false; ADisc None; ADisc (Some 0%nat)] ++ [AWorker 0 false]).
  rewrite <- (assoc_L (++)), run_app, handoff_run, run_app, (fail_run _ _ _ _ _ _ e) by done.
  rewrite run_app.
  assert (Hdrop := drop_sched_run limit post [] (WSendErr e :: replicate m WSelect) MSelect
            MainWait true None ([] ++ [a]) (([] ++ pre) ++ [a]) [] 0%nat None).
  rewrite app_nil_r in Hdrop. rewrite Hdrop by apply existsb_parked_replicate.
  rewrite close_after_return_run. eexists. split; [reflexivity|]. done.
Qed.

End Walker.

(** ** SkipDir *)


(** ** Concrete executions *)



Lemma state_ready_reachable : reachable single_tree "r" visit_boom_b 1 state_ready.
Proof. exists sched_ready. by vm_compute. Qed.


Lemma state_skipdir_returned_reachable :
  reachable sample_tree "r" visit_skip_dirs 1 state_skipdir_returned.
Proof. exists (sched_err 0). by vm_compute. Qed.


Lemma delivery_is_nonblocking_witness :
  reachable single_tree "r" visit_boom_b 1 state_ready /\ panicked state_ready = None /\
  disc state_ready = DDeliver file_b [] /\ ready_worker state_ready 0 = true /\
  step single_tree "r" visit_boom_b 1 (ADisc (Some 0%nat)) state_ready =
    Some (set_disc (DCallback [])
            (add_offered file_b (add_visited file_b
               (set_workers (<[0%nat:=WCall file_b]> (workers state_ready)) state_ready)))) /\
  step single_tree "r" visit_boom_b 1 (ADisc None) state_ready = None.
Proof.
  split; [exact state_ready_reachable|]. do 3 (split; [done|]).
  exact (proj1 (delivery_is_nonblocking single_tree "r" visit_boom_b 1 state_ready file_b []
                  state_ready_reachable eq_refl eq_refl) 0%nat eq_refl).
Defined.

Lemma WalkLimit_bad_limit_panics_witness :
  0 < 1 /\
  WalkLimit sample_tree "r" visit_ok 0 [AMain] =
    Some (do_panic (PanicString limit_message) init) /\
  workers (do_panic (PanicString limit_message) init) = [] /\
  visited (do_panic (PanicString limit_message) init) = [] /\
  forall r, main (do_panic (PanicString limit_message) init) <> MainReturned r.
Proof.
  assert (H0 : 0 < 1) by lia.
  assert (H1 : WalkLimit sample_tree "r" visit_ok 0 [AMain] =
               Some (do_panic (PanicString limit_message) init)) by (by vm_compute).
  destruct (WalkLimit_bad_limit_panics sample_tree "r" visit_ok 0 [AMain] _ H0 H1)
    as (? & _ & _ & ? & _ & _ & ? & _ & ?).
  done.
Defined.



(** C6 fails as stated: when filepath.Walk runs to its end (here on
    [sample_tree] with a visitor that never fails) the call returns nil and
    files has not been closed at all. *)
Lemma files_never_closed_on_completion :
  exists s, WalkLimit sample_tree "r" visit_ok 2 (sched_nil 3) = Some s /\
    main s = MainReturned None /\ disc s = DDone /\ walk_result s = Some None /\
    files_closed s = false /\ files_closes s = 0%nat /\ panicked s = None.
Proof. eexists. split; [vm_compute; reflexivity|]. by vm_compute. Qed.

Lemma files_closed_at_most_once_witness :
  reachable sample_tree "r" visit_skip_dirs 1 state_skipdir_returned /\
  (files_closes state_skipdir_returned <= 1)%nat /\
  (files_closed state_skipdir_returned = true <->
   walk_result state_skipdir_returned = Some (Some WalkAbort)).
Proof.
  split; [exact state_skipdir_returned_reachable|].
  destruct (files_closed_at_most_once sample_tree "r" visit_skip_dirs 1
              state_skipdir_returned state_skipdir_returned_reachable)
    as (H1 & _ & H2 & _).
  split; [exact H1|exact H2].
Defined.


(** C8 fails as stated: tree and visitor do not determine the outcome.  On
    [sample_tree] with the visitor that fails on b.txt, an execution with
    limit 1 returns the error and an execution with limit 2 returns nil. *)
Lemma outcome_differs_between_limits :
  returns sample_tree "r" visit_boom_b 1 (sched_err 2) (Some (Err "boom")) /\
  returns sample_tree "r" visit_boom_b 2 (sched_nil 3) None.
Proof. split; eexists; (split; [vm_compute; reflexivity|]); done. Qed.

Lemma limit_one_serial_same_outcomes_witness :
  1 <= 2 /\
  (may_return sample_tree "r" visit_boom_b 1 false <->
   may_return sample_tree "r" visit_boom_b 2 false) /\
  may_return sample_tree "r" visit_boom_b 2 true.
Proof.
  assert (H : 1 <= 2) by lia. split; [exact H|].
  destruct (limit_one_serial_same_outcomes sample_tree "r" visit_boom_b 2 H)
    as (_ & H1 & H2 & _).
  split; [exact (H1 false)|exact H2].
Defined.



Lemma walk_abort_is_discarded_witness :
  reachable sample_tree "r" visit_skip_dirs 1 state_skipdir_returned /\
  main state_skipdir_returned = MainReturned (Some SkipDir) /\
  walk_result state_skipdir_returned = Some (Some WalkAbort) /\
  (forall a, visit_skip_dirs a <> Some WalkAbort) /\
  Some SkipDir <> Some WalkAbort /\
  (Some SkipDir = None \/
   exists a e, Some SkipDir = Some e /\ a ∈ visited state_skipdir_returned /\
               a ∈ sample_tree "r" /\ visit_skip_dirs a = Some e).
Proof.
  assert (Hv : forall a, visit_skip_dirs a <> Some WalkAbort).
  { intros a. unfold visit_skip_dirs. destruct (info a) as [i|]; [|done].
    by destruct (isDir i). }
  destruct (walk_abort_is_discarded sample_tree "r" visit_skip_dirs 1
              state_skipdir_returned (Some SkipDir)
              state_skipdir_returned_reachable eq_refl) as (H1 & H2 & _).
  split; [exact state_skipdir_returned_reachable|].
  do 2 (split; [done|]). split; [exact Hv|]. split; [exact (H2 Hv)|exact H1].
Defined.

(** ** More concrete executions *)

Lemma state_visiting_reachable : reachable single_tree "r" visit_boom_b 1 state_visiting.
Proof. exists (sched_ready ++ [ADisc (Some 0%nat)]). by vm_compute. Qed.

Lemma state_all_dropped_reachable : reachable sample_tree "r" visit_ok 2 state_all_dropped.
Proof. exists (sched_nil 3). by vm_compute. Qed.

Lemma state_second_error_reachable :
  reachable sample_tree "r" visit_fail_all 2 state_second_error.
Proof. exists sched_two_errors. by vm_compute. Qed.

Lemma state_double_closed_reachable :
  reachable sample_tree "r" visit_boom_b 1 state_double_closed.
Proof. exists (sched_double_close 2 0). by vm_compute. Qed.

Lemma at_most_limit_calls_in_flight_witness :
  reachable single_tree "r" visit_boom_b 1 state_visiting /\
  in_flight state_visiting = 1%nat /\
  (in_flight state_visiting <= Z.to_nat 1)%nat.
Proof.
  split; [exact state_visiting_reachable|]. split; [done|].
  exact (proj1 (at_most_limit_calls_in_flight single_tree "r" visit_boom_b 1
                  state_visiting state_visiting_reachable)).
Defined.

Lemma Walk_runs_fifty_workers_witness :
  Walk sample_tree "r" visit_ok (sched_nil 3) = Some state_walk_done /\
  (in_flight state_walk_done <= 50)%nat /\
  (made_chans state_walk_done = true -> length (workers state_walk_done) = 50%nat).
Proof.
  assert (H : Walk sample_tree "r" visit_ok (sched_nil 3) = Some state_walk_done)
    by (by vm_compute).
  destruct (Walk_runs_fifty_workers sample_tree "r" visit_ok (sched_nil 3)
              state_walk_done H) as (_ & H1 & _ & H2).
  split; [exact H|]. split; [exact H1|exact H2].
Defined.


Lemma nil_return_means_walk_completed_witness :
  reachable sample_tree "r" visit_ok 2 state_all_dropped /\
  main state_all_dropped = MainReturned None /\
  kill_closers state_all_dropped = [GMain] /\
  offered state_all_dropped = sample_tree "r".
Proof.
  split; [exact state_all_dropped_reachable|]. split; [done|].
  destruct (nil_return_means_walk_completed sample_tree "r" visit_ok 2
              state_all_dropped state_all_dropped_reachable eq_refl)
    as (_ & H1 & _ & _ & H2 & _).
  split; [exact H1|exact H2].
Defined.

Lemma harmless_visitor_never_panics_witness :
  1 <= 2 /\ (forall a, a ∈ sample_tree "r" -> visit_ok a = None) /\
  reachable sample_tree "r" visit_ok 2 state_all_dropped /\
  panicked state_all_dropped = None /\ walkErr state_all_dropped = None.
Proof.
  assert (H1 : 1 <= 2) by lia.
  assert (H2 : forall a, a ∈ sample_tree "r" -> visit_ok a = None) by done.
  destruct (harmless_visitor_never_panics sample_tree "r" visit_ok 2 state_all_dropped
              H1 H2 state_all_dropped_reachable) as (H3 & H4 & _).
  split; [exact H1|]. split; [exact H2|]. split; [exact state_all_dropped_reachable|].
  split; [exact H3|exact H4].
Defined.

Lemma caller_can_always_return_witness :
  1 <= 1 /\ reachable single_tree "r" visit_boom_b 1 state_ready /\
  panicked state_ready = None /\ main state_ready = MainWait /\
  exists sched s' r, run single_tree "r" visit_boom_b 1 sched state_ready = Some s' /\
    main s' = MainReturned r /\ panicked s' = None.
Proof.
  assert (H1 : 1 <= 1) by lia.
  split; [exact H1|]. split; [exact state_ready_reachable|]. do 2 (split; [done|]).
  exact (caller_can_always_return single_tree "r" visit_boom_b 1 state_ready H1
           state_ready_reachable eq_refl (or_intror eq_refl)).
Defined.


Lemma kill_can_be_closed_twice_witness :
  1 <= 1 /\ sample_tree "r" = [dir_r; file_a] ++ file_b :: [] /\
  visit_boom_b file_b = Some (Err "boom") /\
  exists s, WalkLimit sample_tree "r" visit_boom_b 1 (sched_double_close 2 0) = Some s /\
    panicked s = Some CloseOfClosedChannel /\ main s = MainCloseKill /\
    kill_closers s = [GMonitor] /\ walkErr s = Some (Err "boom").
Proof.
  assert (H1 : 1 <= 1) by lia. split; [exact H1|]. do 2 (split; [done|]).
  exact (kill_can_be_closed_twice sample_tree "r" visit_boom_b 1
           [dir_r; file_a] file_b [] (Err "boom") H1 eq_refl eq_refl).
Defined.

Lemma worker_can_dereference_nil_witness :
  1 <= 1 /\ sample_tree "r" = [] ++ dir_r :: file_a :: [file_b] /\
  visit_skip_dirs dir_r = Some SkipDir /\
  exists s, WalkLimit sample_tree "r" visit_skip_dirs 1 (sched_nil_deref 0) = Some s /\
    panicked s = Some NilDereference /\ files_closed s = true /\
    workers s !! 0%nat = Some WSelect /\ visited s = [dir_r].
Proof.
  assert (H1 : 1 <= 1) by lia. split; [exact H1|]. do 2 (split; [done|]).
  exact (worker_can_dereference_nil sample_tree "r" visit_skip_dirs 1
           [] dir_r file_a [file_b] SkipDir H1 eq_refl eq_refl).
Defined.

Lemma late_error_is_never_delivered_witness :
  reachable sample_tree "r" visit_fail_all 2 state_second_error /\
  monitor state_second_error <> MSelect /\
  workers state_second_error !! 1%nat = Some (WSendErr (Err "r/a.txt")) /\
  forall s', run sample_tree "r" visit_fail_all 2
                 [ADisc None; ADisc None; AMain; AMain; AMain] state_second_error = Some s' ->
    workers s' !! 1%nat = Some (WSendErr (Err "r/a.txt")).
Proof.
  assert (H1 : monitor state_second_error <> MSelect) by done.
  split; [exact state_second_error_reachable|]. split; [exact H1|]. split; [done|].
  intros s' Hrun.
  exact (proj1 (late_error_is_never_delivered sample_tree "r" visit_fail_all 2 _
                  state_second_error s' 1%nat (Err "r/a.txt")
                  state_second_error_reachable H1 eq_refl Hrun)).
Defined.

Lemma panics_are_of_three_kinds_witness :
  reachable sample_tree "r" visit_boom_b 1 state_double_closed /\
  panicked state_double_closed = Some CloseOfClosedChannel /\
  ((CloseOfClosedChannel = PanicString limit_message /\ 1 < 1 /\
    main state_double_closed = MainLimitCheck) \/
   (CloseOfClosedChannel = CloseOfClosedChannel /\ kill_closed state_double_closed = true /\
    (main state_double_closed = MainCloseKill \/ monitor state_double_closed = MCloseKill)) \/
   (CloseOfClosedChannel = NilDereference /\ files_closed state_double_closed = true /\
    kill_closed state_double_closed = true /\
    exists i, workers state_double_closed !! i = Some WSelect)).
Proof.
  split; [exact state_double_closed_reachable|]. split; [done|].
  exact (panics_are_of_three_kinds sample_tree "r" visit_boom_b 1 state_double_closed
           CloseOfClosedChannel state_double_closed_reachable eq_refl).
Defined.

Lemma all_entries_can_be_dropped_witness :
  1 <= 2 /\
  exists s, WalkLimit sample_tree "r" visit_boom_b 2 (sched_nil (length (sample_tree "r")))
            = Some s /\
    main s = MainReturned None /\ visited s = [] /\ offered s = sample_tree "r" /\
    panicked s = None /\ in_flight s = 0%nat.
Proof.
  assert (H1 : 1 <= 2) by lia. split; [exact H1|].
  exact (all_entries_can_be_dropped sample_tree "r" visit_boom_b 2 H1).
Defined.

Lemma cancellation_is_prompt_witness :
  kill_closed state_cancelled = true /\
  run sample_tree "r" visit_skip_dirs 1 [ADisc None; ADisc None; AMain; AMain; AMain]
      state_cancelled = Some state_skipdir_returned /\
  delivering state_cancelled = 0%nat /\
  (length (offered state_skipdir_returned) <=
   length (offered state_cancelled) + delivering state_cancelled)%nat.
Proof.
  assert (H : run sample_tree "r" visit_skip_dirs 1
                [ADisc None; ADisc None; AMain; AMain; AMain] state_cancelled =
              Some state_skipdir_returned) by (by vm_compute).
  split; [done|]. split; [exact H|]. split; [done|].
  exact (proj1 (cancellation_is_prompt sample_tree "r" visit_skip_dirs 1
                  _ state_cancelled state_skipdir_returned eq_refl H)).
Defined.

Lemma monitor_can_panic_after_return_witness :
  1 <= 1 /\ sample_tree "r" = [dir_r; file_a] ++ file_b :: [] /\
  visit_boom_b file_b = Some (Err "boom") /\
  exists s, WalkLimit sample_tree "r" visit_boom_b 1 (sched_close_after_return 2 0) = Some s /\
    main s = MainReturned None /\ panicked s = Some CloseOfClosedChannel /\
    monitor s = MCloseKill /\ walkErr s = Some (Err "boom") /\ kill_closers s = [GMain].
Proof.
  assert (H1 : 1 <= 1) by lia. split; [exact H1|]. do 2 (split; [done|]).
  exact (monitor_can_panic_after_return sample_tree "r" visit_boom_b 1
           [dir_r; file_a] file_b [] (Err "boom") H1 eq_refl eq_refl).
Defined.
